(** * Solido JS client: the deposit instruction

    A shallow embedding of [js/src/instructions/deposit.ts] together with the
    parts of its environment that the function relies on:

    - JavaScript numbers restricted to the integral values that lamport
      amounts take (module [JsNumber]);
    - the [Buffer] write/read primitives and the [u8], [nu64] and [struct]
      layouts of [@solana/buffer-layout] (modules [Buffer], [BufferLayout]);
    - program-address derivation (module [Derivation]);
    - [getDepositInstruction] itself (module [Deposit]). *)

From Stdlib Require Import ZArith Lia.
From stdpp Require Import base strings list gmap.

Local Open Scope Z_scope.

(** ** Errors and the result monad

    A JavaScript [throw] (or a rejected promise under [await]) aborts the
    caller; this is modelled by an error monad.  [RangeError] is the
    exception of [Buffer]'s writers (the specification also calls it
    [FieldOverflow]); the other errors are those of the specification's
    taxonomy. *)

Inductive error : Type :=
  | RangeError
  | InvalidSeed
  | DerivationExhausted
  | MalformedPayload
  | MissingAccount.

Inductive result (A : Type) : Type :=
  | Ok (a : A)
  | Err (e : error).
Arguments Ok {A} a.
Arguments Err {A} e.

#[global] Instance result_ret : MRet result := fun A a => Ok a.
#[global] Instance result_bind : MBind result := fun A B f m =>
  match m with
  | Ok a => f a
  | Err e => Err e
  end.

Definition is_ok {A} (r : result A) : bool :=
  match r with Ok _ => true | Err _ => false end.

(** ** JavaScript numbers holding integers *)

Module JsNumber.

(** A JS number is an IEEE-754 double.  Lamport amounts are integral, so
    only the integral doubles and the three special values are kept: a
    fractional double has no value here, and every statement below is
    about integral amounts.  A value [Num z] stands for the double equal
    to [z]; this makes sense when [z] is representable, see
    [is_double]. *)
Inductive number : Type :=
  | Num (z : Z)
  | Infinity
  | NegInfinity
  | NaN.

(** Round a non-negative integer [n] to a multiple of [2^e], to nearest,
    ties to the even quotient. *)
Definition round_to_even (e n : Z) : Z :=
  let q := n / 2 ^ e in
  let r := n mod 2 ^ e in
  let half := 2 ^ (e - 1) in
  let q' := if r <? half then q
            else if half <? r then q + 1
            else if Z.even q then q else q + 1 in
  q' * 2 ^ e.

(** Round a non-negative integer to 53 significant bits. *)
Definition round53 (n : Z) : Z :=
  if n <? 2 ^ 53 then n else round_to_even (Z.log2 n - 52) n.

(** The double nearest to the integer [n]: what an integer literal, a
    [Number(string)] conversion or an exact arithmetic result becomes. *)
Definition Number_of_Z (n : Z) : number :=
  let m := round53 (Z.abs n) in
  if 2 ^ 1024 <=? m then (if n <? 0 then NegInfinity else Infinity)
  else Num (Z.sgn n * m).

(** [z] is exactly a double. *)
Definition is_double (z : Z) : bool :=
  (round53 (Z.abs z) =? Z.abs z) && (Z.abs z <? 2 ^ 1024).

Definition MAX_SAFE_INTEGER : Z := 2 ^ 53 - 1.

(** The comparison [a >= k] against an integer [k]. *)
Definition at_least (k : Z) (a : number) : bool :=
  match a with
  | Num z => k <=? z
  | Infinity => true
  | NegInfinity | NaN => false
  end.

(** [Math.floor(a / k)] for a power of two [k > 0]: the division only
    changes the exponent, so the quotient is exact and its floor is the
    integer quotient. *)
Definition floor_div (a : number) (k : Z) : number :=
  match a with
  | Num z => Num (z / k)
  | _ => a
  end.

(** [a * k] for a finite [k > 0]. *)
Definition scale (a : number) (k : Z) : number :=
  match a with
  | Num z => Number_of_Z (z * k)
  | _ => a
  end.

(** [a + b] and [a - b]: the exact result, rounded. *)
Definition add (a b : number) : number :=
  match a, b with
  | NaN, _ | _, NaN => NaN
  | Num x, Num y => Number_of_Z (x + y)
  | Infinity, NegInfinity | NegInfinity, Infinity => NaN
  | Infinity, _ | _, Infinity => Infinity
  | NegInfinity, _ | _, NegInfinity => NegInfinity
  end.

Definition neg (a : number) : number :=
  match a with
  | Num z => Num (- z)
  | Infinity => NegInfinity
  | NegInfinity => Infinity
  | NaN => NaN
  end.

Definition sub (a b : number) : number := add a (neg b).

End JsNumber.
Import JsNumber.

(** ** Node's [Buffer] *)

Module Buffer.

(** A buffer is its list of bytes, each in [0, 255]. *)
Abbreviation Buffer := (list Z).

(** [Buffer.alloc(size)]: zero-filled. *)
Definition alloc (size : nat) : Buffer := replicate size 0.

(** Store the [k] low bytes of [v], least significant first, from index
    [off] on: [buf[off++] = v; v = v >>> 8; ...]. *)
Fixpoint write_le (k : nat) (v : Z) (off : nat) (b : Buffer) : Buffer :=
  match k with
  | O => b
  | S k' => write_le k' (v / 256) (S off) (<[off := v mod 256]> b)
  end.

Fixpoint read_le (k : nat) (off : nat) (b : Buffer) : Z :=
  match k with
  | O => 0
  | S k' => default 0 (b !! off) + 256 * read_le k' (S off) b
  end.

(** The little-endian encoding of [v] on [k] bytes. *)
Fixpoint le_bytes (k : nat) (v : Z) : list Z :=
  match k with
  | O => []
  | S k' => v mod 256 :: le_bytes k' (v / 256)
  end.

(** [buf.writeUIntLE(value, offset, byteLength)]: the byte length must be
    between 1 and 6, the value is checked against
    [0, 2^(8*byteLength) - 1] and the offset against the buffer; each
    failure throws a [RangeError].  [NaN] passes both comparisons of the
    range check and is stored as zero bytes. *)
Definition writeUIntLE (b : Buffer) (value : number) (offset byteLength : nat)
  : result Buffer :=
  let max := 2 ^ (8 * Z.of_nat byteLength) - 1 in
  let store v :=
    if (offset + byteLength <=? length b)%nat
    then Ok (write_le byteLength v offset b)
    else Err RangeError in
  if (byteLength =? 0)%nat || (6 <? byteLength)%nat then Err RangeError
  else
    match value with
    | Num v => if (max <? v) || (v <? 0) then Err RangeError else store v
    | NaN => store 0
    | Infinity | NegInfinity => Err RangeError
    end.

Definition writeUInt32LE (b : Buffer) (value : number) (offset : nat) :=
  writeUIntLE b value offset 4.

(** [buf.readUIntLE(offset, byteLength)], with the same checks on the byte
    length and the offset. *)
Definition readUIntLE (b : Buffer) (offset byteLength : nat) : result number :=
  if (byteLength =? 0)%nat || (6 <? byteLength)%nat then Err RangeError
  else if (offset + byteLength <=? length b)%nat
  then Ok (Num (read_le byteLength offset b))
  else Err RangeError.

Definition readUInt32LE (b : Buffer) (offset : nat) := readUIntLE b offset 4.

End Buffer.
Import Buffer.

(** ** [@solana/buffer-layout] *)

Module BufferLayout.

Definition V2E32 : Z := 2 ^ 32.

Definition divmodInt64 (src : number) : number * number :=
  let hi32 := floor_div src V2E32 in
  let lo32 := sub src (scale hi32 V2E32) in
  (hi32, lo32).

Definition roundedInt64 (hi32 lo32 : number) : number :=
  add (scale hi32 V2E32) lo32.

(** The two layouts the deposit instruction uses: [UInt] (of which [u8] is
    the one-byte case) and [NearUInt64] ([nu64]). *)
Inductive Layout : Type :=
  | UInt (span : nat) (property : string)
  | NearUInt64 (property : string).

Definition u8 (property : string) : Layout := UInt 1 property.
Definition nu64 (property : string) : Layout := NearUInt64 property.

Definition span (l : Layout) : nat :=
  match l with
  | UInt s _ => s
  | NearUInt64 _ => 8
  end.

Definition property (l : Layout) : string :=
  match l with
  | UInt _ p => p
  | NearUInt64 p => p
  end.

(** [layout.encode(src, b, offset)]; the buffer is updated in place, here
    the updated buffer is returned. *)
Definition encode (l : Layout) (src : number) (b : Buffer) (offset : nat)
  : result Buffer :=
  match l with
  | UInt s _ => writeUIntLE b src offset s
  | NearUInt64 _ =>
      let '(hi32, lo32) := divmodInt64 src in
      b ← writeUInt32LE b lo32 offset;
      writeUInt32LE b hi32 (offset + 4)
  end.

Definition decode (l : Layout) (b : Buffer) (offset : nat) : result number :=
  match l with
  | UInt s _ => readUIntLE b offset s
  | NearUInt64 _ =>
      lo32 ← readUInt32LE b offset;
      hi32 ← readUInt32LE b (offset + 4);
      Ok (roundedInt64 hi32 lo32)
  end.

(** [struct(fields)]: the fields in order, without padding. *)
Definition Structure : Type := list Layout.
Definition struct (fields : list Layout) : Structure := fields.

Definition struct_span (s : Structure) : nat := sum_list (span <$> s).

(** [Structure.encode]: each field whose property is present in the source
    object is encoded at the running offset; an absent property leaves the
    bytes as they are. *)
Fixpoint struct_encode (s : Structure) (src : gmap string number)
    (b : Buffer) (offset : nat) : result Buffer :=
  match s with
  | [] => Ok b
  | fd :: rest =>
      b ← match src !! property fd with
          | Some fv => encode fd fv b offset
          | None => Ok b
          end;
      struct_encode rest src b (offset + span fd)
  end.

(** [Structure.decode]: an object with one property per field. *)
Fixpoint struct_decode_into (s : Structure) (b : Buffer) (offset : nat)
    (dest : gmap string number) : result (gmap string number) :=
  match s with
  | [] => Ok dest
  | fd :: rest =>
      v ← decode fd b offset;
      struct_decode_into rest b (offset + span fd) (<[property fd := v]> dest)
  end.

Definition struct_decode (s : Structure) (b : Buffer) (offset : nat) :=
  struct_decode_into s b offset ∅.

End BufferLayout.
Import BufferLayout.

(** ** Public keys and program-derived addresses *)

(** A public key is its 32 bytes. *)
Abbreviation PublicKey := (list Z).

Module Derivation.

(** Modelled from the spec: the maximum length of one seed. *)
Definition MAX_SEED_LEN : nat := 32.

Section Engine.

(** The cryptographic primitives [hash(bytes) -> bytes32] and
    [isOnCurve(bytes32) -> bool], the domain separation tag and the
    maximum number of seeds are supplied by the surrounding SDK. *)
Variable hash : list Z -> PublicKey.
Variable isOnCurve : PublicKey -> bool.
Variable domain_tag : list Z.
Variable MAX_SEEDS : nat.

(** Modelled from the spec: at most [MAX_SEEDS] seeds, each of at most 32
    bytes. *)
Definition valid_seeds (seeds : list (list Z)) : bool :=
  (length seeds <=? MAX_SEEDS)%nat
  && forallb (fun s => (length s <=? MAX_SEED_LEN)%nat) seeds.

(** Modelled from the spec: the candidate address for bump [b],
    [hash(seeds ++ [b] ++ program_id ++ domain_tag)]. *)
Definition candidate (program_id : PublicKey) (seeds : list (list Z))
    (b : nat) : PublicKey :=
  hash (concat seeds ++ [Z.of_nat b] ++ program_id ++ domain_tag).

(** Modelled from the spec: try bump [b], then [b - 1], ... down to [0];
    accept the first candidate that is not on the curve. *)
Fixpoint search (program_id : PublicKey) (seeds : list (list Z))
    (b : nat) : result (PublicKey * nat) :=
  let c := candidate program_id seeds b in
  if isOnCurve c then
    match b with
    | O => Err DerivationExhausted
    | S b' => search program_id seeds b'
    end
  else Ok (c, b).

(** Modelled from the spec: the address derivation behind
    [findAuthorityProgramAddress] (in [js/src/utils], which is not part of
    the sources at hand).  Seeds are validated before any hashing; then
    bump candidates are tried from 255 down to 0 and the first candidate
    that is not on the curve is returned with its bump. *)
Definition derive (program_id : PublicKey) (seeds : list (list Z))
  : result (PublicKey * nat) :=
  if valid_seeds seeds then search program_id seeds 255
  else Err InvalidSeed.

End Engine.

End Derivation.

(** ** [js/src/instructions/deposit.ts] *)

Module Deposit.

(** The fields of [ProgramAddresses] (declared in [js/src/types]) that the
    deposit instruction reads. *)
Record ProgramAddresses : Type := {
  solidoProgramId : PublicKey;
  solidoInstanceId : PublicKey;
  stSolMintAddress : PublicKey;
}.

(** [Lamports] (declared in [js/src/types]): the amount, handed to the
    [nu64] layout as a number. *)
Record Lamports : Type := { lamports : number }.

Record AccountMeta : Type := {
  pubkey : PublicKey;
  isSigner : bool;
  isWritable : bool;
}.

Record TransactionInstruction : Type := {
  keys : list AccountMeta;
  data : Buffer;
  programId : PublicKey;
}.

Definition dataLayout : Structure :=
  struct [u8 "instruction"; nu64 "amount"].

Section Instruction.

(** [TOKEN_PROGRAM_ID] and [SystemProgram.programId] are constants of the
    SDK; [findAuthorityProgramAddress] is the helper of [js/src/utils],
    awaited twice. *)
Variable TOKEN_PROGRAM_ID : PublicKey.
Variable SystemProgram_programId : PublicKey.
Variable findAuthorityProgramAddress :
  ProgramAddresses -> string -> result PublicKey.

Definition getDepositInstruction
    (senderAddress recipientStSolAddress : PublicKey)
    (programAddresses : ProgramAddresses) (amount : Lamports)
  : result TransactionInstruction :=
  let data := alloc (struct_span dataLayout) in
  data ← struct_encode dataLayout
           {[ "instruction" := Num 1; "amount" := lamports amount ]}
           data 0;
  reserveAccountAddress ←
    findAuthorityProgramAddress programAddresses "reserve_account";
  mintAuthorityAddress ←
    findAuthorityProgramAddress programAddresses "mint_authority";
  let keys := [
    {| pubkey := solidoInstanceId programAddresses;
       isSigner := false;
       isWritable := true |};
    {| pubkey := senderAddress; isSigner := true; isWritable := true |};
    {| pubkey := recipientStSolAddress;
       isSigner := false;
       isWritable := true |};
    {| pubkey := stSolMintAddress programAddresses;
       isSigner := false;
       isWritable := true |};
    {| pubkey := reserveAccountAddress;
       isSigner := false; isWritable := true |};
    {| pubkey := mintAuthorityAddress;
       isSigner := false; isWritable := false |};
    {| pubkey := TOKEN_PROGRAM_ID; isSigner := false; isWritable := false |};
    {| pubkey := SystemProgram_programId;
       isSigner := false; isWritable := false |}
  ] in
  Ok {| keys := keys;
        data := data;
        programId := solidoProgramId programAddresses |}.

End Instruction.

(** The payload alone: lines 17-23 of the source. *)
Definition depositData (amount : Lamports) : result Buffer :=
  struct_encode dataLayout
    {[ "instruction" := Num 1; "amount" := lamports amount ]}
    (alloc (struct_span dataLayout)) 0.

(** The codec read back: [dataLayout.decode(data)]. *)
Definition decodeDeposit (b : Buffer) : result (gmap string number) :=
  struct_decode dataLayout b 0.

(** The amounts the codec holds exactly: a non-negative integer that
    fits in 64 bits and is exactly a double.  This is narrower than the
    64-bit range: [2^53 + 1], for one, is not a double. *)
Definition exact_amount (a : number) : bool :=
  match a with
  | Num z => (0 <=? z) && (z <? 2 ^ 64) && is_double z
  | _ => false
  end.

(** The value of the amount field of a payload: its bytes 1 to 8 read as
    a little-endian integer. *)
Definition amount_field (d : Buffer) : Z := read_le 8 1 d.

(** The signer and writable flags of an account list. *)
Definition flags (ks : list AccountMeta) : list (bool * bool) :=
  (fun k => (isSigner k, isWritable k)) <$> ks.

(** The [(isSigner, isWritable)] flags of the deposit instruction, in the
    order of the [keys] array. *)
Definition depositAccountFlags : list (bool * bool) :=
  [ (false, true); (true, true); (false, true); (false, true);
    (false, true); (false, false); (false, false); (false, false) ].

End Deposit.
Import Deposit.

(** ** Concrete inputs

    Small stand-ins for the SDK's primitives and a sample deployment, used to
    run the definitions above on concrete values. *)

Module TestVectors.

Definition bytes_of_string (s : string) : list Z :=
  (fun a => Z.of_nat (Ascii.nat_of_ascii a)) <$> String.list_ascii_of_string s.

(** A checksum in place of the hash: 32 copies of the byte sum. *)
Definition hash (bs : list Z) : PublicKey :=
  replicate 32 (foldr Z.add 0 bs mod 256).

(** A stand-in curve test: off the curve when the first byte is
    [1] modulo [4]. *)
Definition isOnCurve (a : PublicKey) : bool :=
  match a with
  | x :: _ => negb (x mod 4 =? 1)
  | [] => true
  end.

Definition domain_tag : list Z := bytes_of_string "ProgramDerivedAddress".
Definition MAX_SEEDS : nat := 16.

Definition derive := Derivation.derive hash isOnCurve domain_tag MAX_SEEDS.

Definition programAddresses : Deposit.ProgramAddresses :=
  {| Deposit.solidoProgramId := replicate 32 1;
     Deposit.solidoInstanceId := replicate 32 2;
     Deposit.stSolMintAddress := replicate 32 3 |}.

Definition sender : PublicKey := replicate 32 4.
Definition recipient : PublicKey := replicate 32 5.
Definition TOKEN_PROGRAM_ID : PublicKey := replicate 32 6.
Definition SystemProgram_programId : PublicKey := replicate 32 0.

(** A helper in the shape of [findAuthorityProgramAddress]: the instance
    id and the role string as seeds, the address without its bump. *)
Definition find_authority (p : Deposit.ProgramAddresses) (seed : string)
  : result PublicKey :=
  r ← derive (Deposit.solidoProgramId p)
             [Deposit.solidoInstanceId p; bytes_of_string seed];
  Ok r.1.

Definition getDepositInstruction :=
  Deposit.getDepositInstruction
    TOKEN_PROGRAM_ID SystemProgram_programId find_authority.

(** The two derived addresses under the stand-in primitives: both are
    found at bump 252, after three candidates on the curve. *)
Definition reserve_account : PublicKey := replicate 32 5.
Definition mint_authority : PublicKey := replicate 32 189.

Definition account (k : PublicKey) (signer writable : bool)
  : Deposit.AccountMeta :=
  {| Deposit.pubkey := k;
     Deposit.isSigner := signer;
     Deposit.isWritable := writable |}.

(** The instruction expected for a deposit from [S] to [R] with payload
    [payload]. *)
Definition expected_instruction (S R : PublicKey) (payload : Buffer)
  : Deposit.TransactionInstruction :=
  {| Deposit.keys := [
       account (Deposit.solidoInstanceId programAddresses) false true;
       account S true true;
       account R false true;
       account (Deposit.stSolMintAddress programAddresses) false true;
       account reserve_account false true;
       account mint_authority false false;
       account TOKEN_PROGRAM_ID false false;
       account SystemProgram_programId false false ];
     Deposit.data := payload;
     Deposit.programId := Deposit.solidoProgramId programAddresses |}.

End TestVectors.

(** ** What the payload encoder accepts

    Among the integral numbers, the range check of [writeUInt32LE] lets
    through those from [0] up to [2^64] excluded, and it lets through
    [NaN], whose comparisons are all false and which is stored as zero. *)

Definition amount_accepted (x : number) : bool :=
  match x with
  | Num z => (0 <=? z) && (z <? 2 ^ 64)
  | NaN => true
  | Infinity | NegInfinity => false
  end.

(** The integer whose bytes end up in the amount field. *)
Definition amount_stored (x : number) : Z :=
  match x with
  | Num z => z
  | _ => 0
  end.

(** A buffer element is a byte. *)
Definition is_byte (x : Z) : Prop := 0 <= x < 256.

(** * Properties *)

(** ** Numbers *)

Lemma pow2_53_lt_1024 : 2 ^ 53 < 2 ^ 1024.
Proof. apply Z.pow_lt_mono_r; lia. Qed.

Lemma round53_small z : 0 <= z < 2 ^ 53 -> round53 z = z.
Proof.
  intros Hz. unfold round53.
  destruct (Z.ltb_spec z (2 ^ 53)); [reflexivity | lia].
Qed.

Lemma Number_of_Z_small z : 0 <= z < 2 ^ 53 -> Number_of_Z z = Num z.
Proof.
  intros Hz. unfold Number_of_Z.
  rewrite Z.abs_eq by lia. rewrite round53_small by assumption.
  pose proof pow2_53_lt_1024.
  destruct (Z.leb_spec (2 ^ 1024) z); [lia |].
  f_equal. destruct (Z.eq_dec z 0) as [-> | Hnz]; [reflexivity |].
  rewrite Z.sgn_pos by lia. lia.
Qed.

Lemma round_to_even_multiple e n :
  0 < e -> (2 ^ e | n) -> round_to_even e n = n.
Proof.
  intros He [q Hq]. unfold round_to_even.
  assert (Hpos : 0 < 2 ^ e) by (apply Z.pow_pos_nonneg; lia).
  assert (Hhalf : 0 < 2 ^ (e - 1)) by (apply Z.pow_pos_nonneg; lia).
  subst n. rewrite Z.mod_mul by lia. rewrite Z.div_mul by lia.
  destruct (Z.ltb_spec 0 (2 ^ (e - 1))); [reflexivity | lia].
Qed.

Lemma round53_shifted m k :
  0 <= m < 2 ^ 53 -> 0 <= k -> round53 (m * 2 ^ k) = m * 2 ^ k.
Proof.
  intros Hm Hk. unfold round53.
  destruct (Z.ltb_spec (m * 2 ^ k) (2 ^ 53)) as [| Hbig]; [reflexivity |].
  assert (Hkpos : 0 < 2 ^ k) by (apply Z.pow_pos_nonneg; lia).
  assert (Hmpos : 0 < m) by nia.
  assert (Hlog : Z.log2 (m * 2 ^ k) = k + Z.log2 m)
    by (apply Z.log2_mul_pow2; lia).
  assert (Hlm : Z.log2 m < 53) by (apply Z.log2_lt_pow2; lia).
  assert (Hlo : 53 <= Z.log2 (m * 2 ^ k)) by (apply Z.log2_le_pow2; lia).
  apply round_to_even_multiple; [lia |].
  set (e := Z.log2 (m * 2 ^ k) - 52) in *.
  replace k with (e + (k - e)) by lia.
  rewrite Z.pow_add_r by lia.
  exists (m * 2 ^ (k - e)). lia.
Qed.

Lemma Number_of_Z_shifted m k :
  0 <= m < 2 ^ 53 -> 0 <= k -> m * 2 ^ k < 2 ^ 1024 ->
  Number_of_Z (m * 2 ^ k) = Num (m * 2 ^ k).
Proof.
  intros Hm Hk Hlt.
  assert (Hkpos : 0 < 2 ^ k) by (apply Z.pow_pos_nonneg; lia).
  unfold Number_of_Z.
  rewrite Z.abs_eq by nia. rewrite round53_shifted by assumption.
  destruct (Z.leb_spec (2 ^ 1024) (m * 2 ^ k)); [lia |].
  f_equal. destruct (Z.eq_dec m 0) as [-> | Hnz]; [reflexivity |].
  rewrite Z.sgn_pos by nia. lia.
Qed.

Lemma Number_of_Z_double z :
  0 <= z -> is_double z = true -> Number_of_Z z = Num z.
Proof.
  intros Hz Hd. unfold is_double in Hd. rewrite Z.abs_eq in Hd by lia.
  apply andb_true_iff in Hd as [Hr Hlt].
  apply Z.eqb_eq in Hr. apply Z.ltb_lt in Hlt.
  unfold Number_of_Z. rewrite Z.abs_eq by lia. rewrite Hr.
  destruct (Z.leb_spec (2 ^ 1024) z); [lia |].
  f_equal. destruct (Z.eq_dec z 0) as [-> | Hnz]; [reflexivity |].
  rewrite Z.sgn_pos by lia. lia.
Qed.

(** ** Buffers *)

Lemma length_write_le k v off (b : Buffer) :
  length (write_le k v off b) = length b.
Proof.
  revert v off b. induction k as [| k IH]; intros v off b; simpl.
  - reflexivity.
  - rewrite IH. apply length_insert.
Qed.

Lemma writeUIntLE_length b v off k b' :
  writeUIntLE b v off k = Ok b' -> length b' = length b.
Proof.
  unfold writeUIntLE. cbv zeta. intros H.
  destruct v as [z | | |]; repeat case_match; simplify_eq;
    apply length_write_le.
Qed.

Lemma writeUIntLE_error b v off k e :
  writeUIntLE b v off k = Err e -> e = RangeError.
Proof.
  unfold writeUIntLE. cbv zeta. intros H.
  destruct v as [z | | |]; repeat case_match; congruence.
Qed.

Ltac result_simpl := cbn [mbind result_bind mret result_ret] in *.

Lemma encode_length l src b off b' :
  encode l src b off = Ok b' -> length b' = length b.
Proof.
  destruct l as [s p | p]; cbn [encode].
  - apply writeUIntLE_length.
  - unfold divmodInt64, writeUInt32LE.
    destruct (writeUIntLE b _ off 4) as [b1 |] eqn:H1; result_simpl;
      [| discriminate].
    intros H2. apply writeUIntLE_length in H1, H2. congruence.
Qed.

Lemma encode_error l src b off e :
  encode l src b off = Err e -> e = RangeError.
Proof.
  destruct l as [s p | p]; cbn [encode].
  - apply writeUIntLE_error.
  - unfold divmodInt64, writeUInt32LE.
    destruct (writeUIntLE b _ off 4) as [b1 |] eqn:H1; result_simpl.
    + apply writeUIntLE_error.
    + intros [= <-]. eapply writeUIntLE_error, H1.
Qed.

Lemma struct_encode_length s src b off b' :
  struct_encode s src b off = Ok b' -> length b' = length b.
Proof.
  revert b off. induction s as [| fd rest IH]; intros b off; simpl.
  - congruence.
  - destruct (src !! property fd) as [fv |]; result_simpl.
    + destruct (encode fd fv b off) as [b1 |] eqn:H1; result_simpl;
        [| discriminate].
      intros H2. apply IH in H2. apply encode_length in H1. congruence.
    + apply IH.
Qed.

Lemma struct_encode_error s src b off e :
  struct_encode s src b off = Err e -> e = RangeError.
Proof.
  revert b off. induction s as [| fd rest IH]; intros b off; simpl.
  - discriminate.
  - destruct (src !! property fd) as [fv |]; result_simpl.
    + destruct (encode fd fv b off) as [b1 |] eqn:H1; result_simpl.
      * apply IH.
      * intros [= <-]. eapply encode_error, H1.
    + apply IH.
Qed.

Lemma depositData_unfold amount :
  depositData amount =
  encode (nu64 "amount") (lamports amount) [1; 0; 0; 0; 0; 0; 0; 0; 0] 1.
Proof.
  unfold depositData, dataLayout, struct. cbn [struct_encode].
  change (property (u8 "instruction")) with "instruction".
  change (property (nu64 "amount")) with "amount".
  rewrite lookup_insert_eq. rewrite lookup_insert_ne by done.
  rewrite lookup_singleton_eq.
  change (encode (u8 "instruction") (Num 1)
            (alloc (struct_span [u8 "instruction"; nu64 "amount"])) 0)
    with (Ok (A := Buffer) [1; 0; 0; 0; 0; 0; 0; 0; 0]).
  result_simpl.
  change (0 + span (u8 "instruction"))%nat with 1%nat.
  destruct (encode _ _ _ _); reflexivity.
Qed.

Lemma divmodInt64_uint64 z :
  0 <= z < 2 ^ 64 ->
  divmodInt64 (Num z) = (Num (z / 2 ^ 32), Num (z mod 2 ^ 32)).
Proof.
  intros Hz. unfold divmodInt64, floor_div, scale, sub, neg, add, V2E32.
  assert (Hhi : 0 <= z / 2 ^ 32 < 2 ^ 32).
  { split; [apply Z.div_pos; lia |].
    apply Z.div_lt_upper_bound; [lia |]. rewrite <- Z.pow_add_r; lia. }
  rewrite Number_of_Z_shifted; [| lia | lia |].
  - f_equal. rewrite Z.mod_eq by lia.
    replace (z + - (z / 2 ^ 32 * 2 ^ 32)) with (z - 2 ^ 32 * (z / 2 ^ 32)) by lia.
    rewrite <- Z.mod_eq by lia.
    apply Number_of_Z_small.
    pose proof (Z.mod_pos_bound z (2 ^ 32) ltac:(lia)). lia.
  - pose proof pow2_53_lt_1024. lia.
Qed.

Lemma le_bytes_app j k v :
  le_bytes (j + k) v =
  le_bytes j (v mod 256 ^ Z.of_nat j) ++ le_bytes k (v / 256 ^ Z.of_nat j).
Proof.
  revert v. induction j as [| j IH]; intros v.
  - simpl. rewrite Z.div_1_r. reflexivity.
  - assert (Hp : 0 < 256 ^ Z.of_nat j) by (apply Z.pow_pos_nonneg; lia).
    replace (256 ^ Z.of_nat (S j)) with (256 * 256 ^ Z.of_nat j)
      by (rewrite Nat2Z.inj_succ, Z.pow_succ_r; lia).
    cbn [le_bytes Nat.add app]. rewrite IH. f_equal; [| f_equal].
    + rewrite Z.rem_mul_r by lia.
      rewrite (Z.mul_comm 256), Z.mod_add by lia.
      symmetry. apply Z.mod_mod. lia.
    + f_equal. rewrite Z.rem_mul_r by lia.
      rewrite (Z.mul_comm 256), Z.div_add by lia.
      rewrite Z.mod_div by lia. lia.
    + f_equal. rewrite Z.div_div by lia. reflexivity.
Qed.

Lemma le_bytes_8 z :
  le_bytes 8 z = le_bytes 4 (z mod 2 ^ 32) ++ le_bytes 4 (z / 2 ^ 32).
Proof. exact (le_bytes_app 4 4 z). Qed.


Lemma round53_idempotent a : 0 <= a -> round53 (round53 a) = round53 a.
Proof.
  intros Ha.
  destruct (Z.lt_ge_cases a (2 ^ 53)) as [Hsmall | Hbig].
  - rewrite !(round53_small a) by lia. reflexivity.
  - assert (Hr : round53 a = round_to_even (Z.log2 a - 52) a).
    { unfold round53. destruct (Z.ltb_spec a (2 ^ 53)); [lia | reflexivity]. }
    rewrite Hr. clear Hr.
    set (e := Z.log2 a - 52).
    assert (Hlog : 53 <= Z.log2 a) by (apply Z.log2_le_pow2; lia).
    assert (He : 0 < e) by (unfold e; lia).
    assert (Hpe : 0 < 2 ^ e) by (apply Z.pow_pos_nonneg; lia).
    destruct (Z.log2_spec a ltac:(lia)) as [Hlo Hhi].
    replace (Z.log2 a) with (52 + e) in Hlo by (unfold e; lia).
    replace (Z.succ (Z.log2 a)) with (53 + e) in Hhi by (unfold e; lia).
    rewrite Z.pow_add_r in Hlo, Hhi by lia.
    assert (Hq : 2 ^ 52 <= a / 2 ^ e < 2 ^ 53).
    { split; [apply Z.div_le_lower_bound; lia
             | apply Z.div_lt_upper_bound; lia]. }
    unfold round_to_even.
    set (q' := if _ <? _ then _ else _).
    assert (Hq' : q' = a / 2 ^ e \/ q' = a / 2 ^ e + 1).
    { subst q'. repeat case_match; auto. }
    destruct (Z.eq_dec q' (2 ^ 53)) as [-> | Hne].
    + rewrite <- Z.pow_add_r by lia.
      rewrite <- (Z.mul_1_l (2 ^ (53 + e))).
      apply round53_shifted; lia.
    + apply round53_shifted; lia.
Qed.

Lemma round53_nonneg a : 0 <= a -> 0 <= round53 a.
Proof.
  intros Ha. unfold round53, round_to_even.
  destruct (a <? 2 ^ 53); [assumption |].
  assert (Hp : 0 <= 2 ^ (Z.log2 a - 52)) by (apply Z.pow_nonneg; lia).
  pose proof (Z_div_nonneg_nonneg a _ Ha Hp).
  apply Z.mul_nonneg_nonneg; [| assumption].
  repeat case_match; lia.
Qed.

Lemma Number_of_Z_is_double n m :
  Number_of_Z n = Num m -> is_double m = true.
Proof.
  unfold Number_of_Z, is_double.
  pose proof (round53_nonneg (Z.abs n) (Z.abs_nonneg n)) as Hnn.
  destruct (Z.leb_spec (2 ^ 1024) (round53 (Z.abs n))) as [| Hlt].
  - destruct (n <? 0); discriminate.
  - intros [= <-].
    assert (Habs : Z.abs (Z.sgn n * round53 (Z.abs n)) = round53 (Z.abs n)).
    { destruct n as [| p | p]; cbn [Z.sgn Z.abs] in *.
      - reflexivity.
      - rewrite Z.mul_1_l. apply Z.abs_eq, Hnn.
      - rewrite (Z.abs_neq (-1 * _)) by lia. lia. }
    rewrite Habs, round53_idempotent by apply Z.abs_nonneg.
    rewrite Z.eqb_refl. apply Z.ltb_lt in Hlt. rewrite Hlt. reflexivity.
Qed.
Lemma writeUIntLE_ok (b : Buffer) v off k :
  (1 <= k <= 6)%nat ->
  0 <= v < 2 ^ (8 * Z.of_nat k) -> (off + k <= length b)%nat ->
  writeUIntLE b (Num v) off k = Ok (write_le k v off b).
Proof.
  intros Hk Hv Hb. unfold writeUIntLE. cbv zeta.
  destruct (Nat.eqb_spec k 0); [lia |].
  destruct (Nat.ltb_spec 6 k); [lia |]. cbn [orb].
  destruct (Z.ltb_spec (2 ^ (8 * Z.of_nat k) - 1) v); [lia |].
  destruct (Z.ltb_spec v 0); [lia |].
  destruct (Nat.leb_spec (off + k) (length b)); [reflexivity | lia].
Qed.

Lemma write_le_spec k v off (b : Buffer) :
  (off + k <= length b)%nat ->
  write_le k v off b = take off b ++ le_bytes k v ++ drop (off + k) b.
Proof.
  revert v off b. induction k as [| k IH]; intros v off b Hb.
  - cbn [write_le le_bytes app]. rewrite Nat.add_0_r, take_drop. reflexivity.
  - cbn [write_le le_bytes]. rewrite IH by (rewrite length_insert; lia).
    rewrite drop_insert_lt by lia.
    assert (Htake : take (S off) (<[off := v mod 256]> b)
                    = take off b ++ [v mod 256]).
    { rewrite (insert_take_drop b off) by lia.
      rewrite cons_middle, app_assoc.
      apply take_app_length'. rewrite length_app, length_take. simpl. lia. }
    rewrite Htake, <- app_assoc.
    replace (off + S k)%nat with (S off + k)%nat by lia. reflexivity.
Qed.

(** The split into two 32-bit words is exact below [2^64], so the payload
    is the discriminant followed by the eight little-endian bytes. *)
Lemma depositData_uint64 z :
  0 <= z < 2 ^ 64 ->
  depositData {| lamports := Num z |} = Ok (1 :: le_bytes 8 z).
Proof.
  intros Hz. rewrite depositData_unfold. cbn [lamports encode nu64].
  rewrite divmodInt64_uint64 by assumption.
  assert (Hhi : 0 <= z / 2 ^ 32 < 2 ^ 32).
  { split; [apply Z.div_pos; lia |].
    apply Z.div_lt_upper_bound; [lia |]. rewrite <- Z.pow_add_r; lia. }
  pose proof (Z.mod_pos_bound z (2 ^ 32) ltac:(lia)) as Hlo.
  unfold writeUInt32LE.
  rewrite writeUIntLE_ok by (rewrite ?length_write_le; simpl; lia).
  result_simpl.
  rewrite writeUIntLE_ok by (rewrite ?length_write_le; simpl; lia).
  rewrite !write_le_spec by (rewrite ?length_write_le; simpl; lia).
  rewrite le_bytes_8. cbn [le_bytes]. reflexivity.
Qed.

Lemma encode_overflow l v (b : Buffer) off :
  2 ^ (8 * Z.of_nat (span l)) <= v ->
  encode l (Num v) b off = Err RangeError.
Proof.
  intros Hv. destruct l as [s p | p]; cbn [encode span] in *.
  - unfold writeUIntLE. cbv zeta.
    destruct ((s =? 0)%nat || (6 <? s)%nat); [reflexivity |].
    destruct (Z.ltb_spec (2 ^ (8 * Z.of_nat s) - 1) v); [reflexivity | lia].
  - change (2 ^ (8 * Z.of_nat 8)) with (2 ^ 64) in Hv.
    unfold divmodInt64, writeUInt32LE. cbn [floor_div].
    assert (Hhi : 2 ^ 32 <= v / V2E32).
    { unfold V2E32. apply Z.div_le_lower_bound; [lia |].
      rewrite <- Z.pow_add_r by lia. exact Hv. }
    destruct (writeUIntLE b _ off 4) as [b1 |] eqn:H1; result_simpl.
    + unfold writeUIntLE. cbv zeta. cbn [Nat.eqb Nat.ltb Nat.leb orb].
      change (2 ^ (8 * Z.of_nat 4) - 1) with (2 ^ 32 - 1).
      destruct (Z.ltb_spec (2 ^ 32 - 1) (v / V2E32)); [reflexivity | lia].
    + f_equal. eapply writeUIntLE_error, H1.
Qed.

Lemma encode_negative l v (b : Buffer) off :
  v < 0 -> encode l (Num v) b off = Err RangeError.
Proof.
  intros Hv. destruct l as [s p | p]; cbn [encode].
  - unfold writeUIntLE. cbv zeta.
    destruct ((s =? 0)%nat || (6 <? s)%nat); [reflexivity |].
    destruct (Z.ltb_spec v 0); [| lia]. rewrite orb_true_r. reflexivity.
  - unfold divmodInt64, writeUInt32LE. cbn [floor_div].
    assert (Hhi : v / V2E32 < 0) by (apply Z.div_lt_upper_bound; unfold V2E32; lia).
    destruct (writeUIntLE b _ off 4) as [b1 |] eqn:H1; result_simpl.
    + unfold writeUIntLE. cbv zeta. cbn [Nat.eqb Nat.ltb Nat.leb orb].
      destruct (Z.ltb_spec (v / V2E32) 0); [| lia].
      rewrite orb_true_r. reflexivity.
    + f_equal. eapply writeUIntLE_error, H1.
Qed.

Lemma depositData_overflow z :
  2 ^ 64 <= z -> depositData {| lamports := Num z |} = Err RangeError.
Proof.
  intros Hz. rewrite depositData_unfold. apply encode_overflow. exact Hz.
Qed.

Lemma depositData_negative z :
  z < 0 -> depositData {| lamports := Num z |} = Err RangeError.
Proof.
  intros Hz. rewrite depositData_unfold. apply encode_negative. exact Hz.
Qed.

Lemma depositData_length amount d :
  depositData amount = Ok d -> length d = 9%nat.
Proof.
  unfold depositData. intros H. apply struct_encode_length in H.
  rewrite H. reflexivity.
Qed.

Lemma depositData_error amount e :
  depositData amount = Err e -> e = RangeError.
Proof. unfold depositData. apply struct_encode_error. Qed.

(** Doubles just below [2^64] are [2048] apart. *)
Lemma is_double_below_2_64 z :
  is_double z = true -> z < 2 ^ 64 -> z <= 2 ^ 64 - 2048.
Proof.
  intros Hd Hlt.
  destruct (Z.le_gt_cases z (2 ^ 64 - 2048)) as [| Hgt]; [assumption | exfalso].
  unfold is_double in Hd. apply andb_true_iff in Hd as [Hr _].
  apply Z.eqb_eq in Hr. rewrite Z.abs_eq in Hr by lia.
  unfold round53 in Hr.
  destruct (Z.ltb_spec z (2 ^ 53)); [lia |].
  assert (Hlog : Z.log2 z = 63) by (apply Z.log2_unique; lia).
  rewrite Hlog in Hr. unfold round_to_even in Hr.
  change (63 - 52) with 11 in Hr. change (2 ^ 11) with 2048 in Hr.
  set (q' := if _ <? _ then _ else _) in Hr. clearbody q'. lia.
Qed.

Lemma length_le_bytes k v : length (le_bytes k v) = k.
Proof.
  revert v. induction k as [| k IH]; intros v; simpl; [reflexivity |].
  rewrite IH. reflexivity.
Qed.

Lemma read_le_bytes k v (pre post : Buffer) :
  read_le k (length pre) (pre ++ le_bytes k v ++ post) = v mod 256 ^ Z.of_nat k.
Proof.
  revert v pre. induction k as [| k IH]; intros v pre.
  - simpl. rewrite Z.mod_1_r. reflexivity.
  - cbn [read_le le_bytes].
    rewrite lookup_app_r by lia. rewrite Nat.sub_diag. cbn [app lookup list_lookup default].
    replace (pre ++ v mod 256 :: le_bytes k (v / 256) ++ post)
      with ((pre ++ [v mod 256]) ++ le_bytes k (v / 256) ++ post)
      by (rewrite <- app_assoc; reflexivity).
    replace (S (length pre)) with (length (pre ++ [v mod 256]))
      by (rewrite length_app; simpl; lia).
    rewrite IH.
    assert (Hp : 0 < 256 ^ Z.of_nat k) by (apply Z.pow_pos_nonneg; lia).
    replace (256 ^ Z.of_nat (S k)) with (256 * 256 ^ Z.of_nat k)
      by (rewrite Nat2Z.inj_succ, Z.pow_succ_r; lia).
    rewrite Z.rem_mul_r by lia. reflexivity.
Qed.

Lemma decodeDeposit_payload z :
  0 <= z < 2 ^ 64 ->
  decodeDeposit (1 :: le_bytes 8 z) =
  Ok {[ "instruction" := Num 1; "amount" := Number_of_Z z ]}.
Proof.
  intros Hz.
  assert (Hhi : 0 <= z / 2 ^ 32 < 2 ^ 32).
  { split; [apply Z.div_pos; lia |].
    apply Z.div_lt_upper_bound; [lia |]. rewrite <- Z.pow_add_r; lia. }
  pose proof (Z.mod_pos_bound z (2 ^ 32) ltac:(lia)) as Hlo.
  unfold decodeDeposit, struct_decode, dataLayout, struct.
  cbn [struct_decode_into decode u8 nu64 property span Nat.add].
  unfold readUInt32LE, readUIntLE.
  cbn [length le_bytes Nat.add Nat.leb Nat.eqb Nat.ltb orb].
  result_simpl.
  change (read_le 1 0 _) with (1 + 256 * 0). change (1 + 256 * 0) with 1.
  assert (Hlo32 : read_le 4 1 (1 :: le_bytes 8 z) = z mod 2 ^ 32).
  { rewrite le_bytes_8.
    pose proof (read_le_bytes 4 (z mod 2 ^ 32) [1] (le_bytes 4 (z / 2 ^ 32)))
      as H.
    cbn [length app] in H. rewrite H. change (256 ^ Z.of_nat 4) with (2 ^ 32).
    apply Z.mod_mod. lia. }
  assert (Hhi32 : read_le 4 5 (1 :: le_bytes 8 z) = z / 2 ^ 32).
  { rewrite le_bytes_8.
    pose proof (read_le_bytes 4 (z / 2 ^ 32) (1 :: le_bytes 4 (z mod 2 ^ 32)) [])
      as H.
    rewrite app_nil_r in H. cbn [length] in H. rewrite length_le_bytes in H.
    cbn [app] in H. rewrite H. change (256 ^ Z.of_nat 4) with (2 ^ 32).
    apply Z.mod_small. lia. }
  cbn [le_bytes] in Hlo32, Hhi32. rewrite Hlo32, Hhi32.
  unfold roundedInt64, scale, add, V2E32.
  pose proof pow2_53_lt_1024.
  rewrite (Number_of_Z_shifted (z / 2 ^ 32) 32) by lia.
  replace (z / 2 ^ 32 * 2 ^ 32 + z mod 2 ^ 32) with z
    by (rewrite (Z.div_mod z (2 ^ 32)) at 1; lia).
  rewrite insert_empty. reflexivity.
Qed.

(** ** Address derivation *)

Section DerivationProperties.

Context (hash : list Z -> PublicKey) (isOnCurve : PublicKey -> bool)
        (domain_tag : list Z) (MAX_SEEDS : nat).

Local Abbreviation candidate := (Derivation.candidate hash domain_tag).
Local Abbreviation search := (Derivation.search hash isOnCurve domain_tag).
Local Abbreviation derive :=
  (Derivation.derive hash isOnCurve domain_tag MAX_SEEDS).
Lemma search_Ok_inv pid seeds b addr bump :
  search pid seeds b = Ok (addr, bump) ->
  (bump <= b)%nat
  /\ addr = candidate pid seeds bump
  /\ isOnCurve addr = false
  /\ forall b', (bump < b' <= b)%nat ->
                isOnCurve (candidate pid seeds b') = true.
Proof.
  induction b as [| b IH]; cbn [Derivation.search]; intros H.
  - destruct (isOnCurve (candidate pid seeds 0)) eqn:Hc; [discriminate |].
    injection H as <- <-. repeat split; [lia | exact Hc | intros; lia].
  - destruct (isOnCurve (candidate pid seeds (S b))) eqn:Hc.
    + destruct (IH H) as (Hle & Ha & Hoff & Hon).
      repeat split; [lia | exact Ha | exact Hoff |].
      intros b' Hb'. destruct (Nat.eq_dec b' (S b)) as [-> | Hne];
        [exact Hc | apply Hon; lia].
    + injection H as <- <-. repeat split; [lia | exact Hc | intros; lia].
Qed.

(** C8: a successful derivation returns an address that is not on the
    curve.  The bump is at most 255, the address is the hash candidate of
    that bump, it fails the curve-membership check, and every larger bump
    up to 255 gave a candidate on the curve: the search runs from 255
    downwards and accepts the first candidate off the curve. *)
Theorem derive_off_curve pid seeds addr bump :
  derive pid seeds = Ok (addr, bump) ->
  isOnCurve addr = false
  /\ (bump <= 255)%nat
  /\ addr = candidate pid seeds bump
  /\ forall b', (bump < b' <= 255)%nat ->
                isOnCurve (candidate pid seeds b') = true.
Proof.
  unfold Derivation.derive.
  destruct (Derivation.valid_seeds MAX_SEEDS seeds); [| discriminate].
  intros H. apply search_Ok_inv in H as (Hle & Ha & Hoff & Hon).
  repeat split; assumption.
Qed.

End DerivationProperties.

(** ** The deposit instruction *)

Section DepositProperties.

Context (TOKEN_PROGRAM_ID SystemProgram_programId : PublicKey)
        (findAuthorityProgramAddress :
           ProgramAddresses -> string -> result PublicKey).

Local Abbreviation getDepositInstruction :=
  (Deposit.getDepositInstruction
     TOKEN_PROGRAM_ID SystemProgram_programId findAuthorityProgramAddress).

(** The account list the source builds from the resolved addresses. *)
Local Abbreviation account_list S R P ra ma :=
  [ {| pubkey := solidoInstanceId P; isSigner := false; isWritable := true |};
    {| pubkey := S; isSigner := true; isWritable := true |};
    {| pubkey := R; isSigner := false; isWritable := true |};
    {| pubkey := stSolMintAddress P; isSigner := false; isWritable := true |};
    {| pubkey := ra; isSigner := false; isWritable := true |};
    {| pubkey := ma; isSigner := false; isWritable := false |};
    {| pubkey := TOKEN_PROGRAM_ID; isSigner := false; isWritable := false |};
    {| pubkey := SystemProgram_programId;
       isSigner := false; isWritable := false |} ].

Lemma getDepositInstruction_unfold S R P amount :
  getDepositInstruction S R P amount =
  d ← depositData amount;
  ra ← findAuthorityProgramAddress P "reserve_account";
  ma ← findAuthorityProgramAddress P "mint_authority";
  Ok {| keys := account_list S R P ra ma;
        data := d;
        programId := solidoProgramId P |}.
Proof. reflexivity. Qed.

Lemma getDepositInstruction_Ok_inv S R P amount i :
  getDepositInstruction S R P amount = Ok i ->
  exists d ra ma,
    depositData amount = Ok d
    /\ findAuthorityProgramAddress P "reserve_account" = Ok ra
    /\ findAuthorityProgramAddress P "mint_authority" = Ok ma
    /\ i = {| keys := account_list S R P ra ma;
              data := d;
              programId := solidoProgramId P |}.
Proof.
  rewrite getDepositInstruction_unfold.
  destruct (depositData amount) as [d |]; result_simpl; [| discriminate].
  destruct (findAuthorityProgramAddress P "reserve_account") as [ra |];
    result_simpl; [| discriminate].
  destruct (findAuthorityProgramAddress P "mint_authority") as [ma |];
    result_simpl; [| discriminate].
  intros [= <-]. exists d, ra, ma. repeat split.
Qed.

(** C1: the deposit scenario.  With both derived addresses resolved, a
    deposit of 1_000_000 base units yields an instruction for the program
    id whose payload is the byte [0x01] followed by the little-endian
    8-byte encoding of 1000000 (nine bytes in all) and whose account list
    is, in order: instance (writable), sender (signer, writable),
    recipient (writable), mint (writable), reserve (writable), mint
    authority (read-only), token program (read-only), system program
    (read-only). *)
Theorem deposit_scenario S R P ra ma :
  findAuthorityProgramAddress P "reserve_account" = Ok ra ->
  findAuthorityProgramAddress P "mint_authority" = Ok ma ->
  getDepositInstruction S R P {| lamports := Num 1000000 |} =
    Ok {| keys := [
            {| pubkey := solidoInstanceId P;
               isSigner := false; isWritable := true |};
            {| pubkey := S; isSigner := true; isWritable := true |};
            {| pubkey := R; isSigner := false; isWritable := true |};
            {| pubkey := stSolMintAddress P;
               isSigner := false; isWritable := true |};
            {| pubkey := ra; isSigner := false; isWritable := true |};
            {| pubkey := ma; isSigner := false; isWritable := false |};
            {| pubkey := TOKEN_PROGRAM_ID;
               isSigner := false; isWritable := false |};
            {| pubkey := SystemProgram_programId;
               isSigner := false; isWritable := false |} ];
          data := 1 :: le_bytes 8 1000000;
          programId := solidoProgramId P |}
  /\ 1 :: le_bytes 8 1000000 = [1; 64; 66; 15; 0; 0; 0; 0; 0].
Proof.
  intros Hra Hma. split; [| reflexivity].
  rewrite getDepositInstruction_unfold.
  rewrite depositData_uint64 by lia. rewrite Hra, Hma. reflexivity.
Qed.

(** C3: account order stability.  Any two deposit instructions, built
    from whatever addresses and amounts, carry the same signer/writable
    flags position by position, namely the fixed table
    [depositAccountFlags]; and the addresses sit in the fixed order
    instance, sender, recipient, mint, reserve, mint authority, token
    program, system program. *)
Theorem account_order_stable S R P a i S' R' P' a' i' :
  getDepositInstruction S R P a = Ok i ->
  getDepositInstruction S' R' P' a' = Ok i' ->
  flags (keys i) = flags (keys i')
  /\ flags (keys i) = depositAccountFlags
  /\ exists ra ma,
       findAuthorityProgramAddress P "reserve_account" = Ok ra
       /\ findAuthorityProgramAddress P "mint_authority" = Ok ma
       /\ pubkey <$> keys i =
          [ solidoInstanceId P; S; R; stSolMintAddress P; ra; ma;
            TOKEN_PROGRAM_ID; SystemProgram_programId ].
Proof.
  intros H H'.
  apply getDepositInstruction_Ok_inv in H as (d & ra & ma & _ & Hra & Hma & ->).
  apply getDepositInstruction_Ok_inv in H' as (d' & ra' & ma' & _ & _ & _ & ->).
  repeat split. exists ra, ma. repeat split; assumption.
Qed.

(** C6: assembly is all-or-nothing.  A failed call fails with the error
    of the first component that failed (payload encoding, then the reserve
    address, then the mint authority address) and returns no instruction;
    a successful call means every component succeeded, and the
    instruction carries all eight accounts and the whole nine-byte
    payload. *)
Theorem deposit_all_or_nothing S R P amount :
  match getDepositInstruction S R P amount with
  | Err e =>
      depositData amount = Err e
      \/ (is_ok (depositData amount) = true
          /\ findAuthorityProgramAddress P "reserve_account" = Err e)
      \/ (is_ok (depositData amount) = true
          /\ is_ok (findAuthorityProgramAddress P "reserve_account") = true
          /\ findAuthorityProgramAddress P "mint_authority" = Err e)
  | Ok i =>
      exists d ra ma,
        depositData amount = Ok d
        /\ findAuthorityProgramAddress P "reserve_account" = Ok ra
        /\ findAuthorityProgramAddress P "mint_authority" = Ok ma
        /\ i = {| keys := account_list S R P ra ma;
                  data := d;
                  programId := solidoProgramId P |}
        /\ length (keys i) = 8%nat
        /\ length (data i) = 9%nat
  end.
Proof.
  destruct (getDepositInstruction S R P amount) as [i | e] eqn:H.
  - apply getDepositInstruction_Ok_inv in H as (d & ra & ma & Hd & Hra & Hma & ->).
    exists d, ra, ma. repeat split; try assumption.
    cbn [data]. eapply depositData_length, Hd.
  - rewrite getDepositInstruction_unfold in H.
    destruct (depositData amount) as [d |]; result_simpl;
      [| left; congruence].
    destruct (findAuthorityProgramAddress P "reserve_account") as [ra |];
      result_simpl; [| right; left; split; [reflexivity | congruence]].
    destruct (findAuthorityProgramAddress P "mint_authority") as [ma |];
      result_simpl; [discriminate |].
    right; right. repeat split. congruence.
Qed.

(** C9: the sender is the only signer.  In every instruction built, the
    list has eight entries, the second one is the caller's sender address
    marked signer and writable, it is the only entry with [isSigner] set,
    and so neither the instance, the recipient, the mint, a derived
    address nor a program id is marked as a signer. *)
Theorem sender_only_signer S R P amount i :
  getDepositInstruction S R P amount = Ok i ->
  length (keys i) = 8%nat
  /\ keys i !! 1%nat =
     Some {| pubkey := S; isSigner := true; isWritable := true |}
  /\ List.filter isSigner (keys i) =
     [ {| pubkey := S; isSigner := true; isWritable := true |} ]
  /\ forall n k, keys i !! n = Some k -> isSigner k = true -> n = 1%nat.
Proof.
  intros H.
  apply getDepositInstruction_Ok_inv in H as (d & ra & ma & _ & _ & _ & ->).
  cbn [keys]. repeat split.
  intros n k Hn Hk.
  do 8 (destruct n as [| n]; [injection Hn as <-; cbn in Hk; congruence |]).
  discriminate.
Qed.

End DepositProperties.

(** ** The payload codec *)

Lemma amount_field_le_bytes z :
  0 <= z < 2 ^ 64 -> amount_field (1 :: le_bytes 8 z) = z.
Proof.
  intros Hz. unfold amount_field.
  pose proof (read_le_bytes 8 z [1] []) as H.
  rewrite app_nil_r in H. cbn [length app] in H. rewrite H.
  change (256 ^ Z.of_nat 8) with (2 ^ 64). apply Z.mod_small. lia.
Qed.

(** Every number that [Number_of_Z] produces in the 64-bit range is a valid
    amount. *)
Lemma valid_amount_Number_of_Z n m :
  Number_of_Z n = Num m -> 0 <= m < 2 ^ 64 -> exact_amount (Num m) = true.
Proof.
  intros Hn Hm. cbn [exact_amount].
  rewrite (Number_of_Z_is_double n m Hn), andb_true_r.
  apply andb_true_iff. split; [apply Z.leb_le | apply Z.ltb_lt]; lia.
Qed.

(** C2, as amended: amounts of [2^64] and more are rejected with a
    [RangeError], for the payload of the instruction and for every layout
    and integral value that exceeds the layout's width, so nothing is
    truncated.  The boundary value that is encoded is not [2^64 - 1]: that
    integer is not a JavaScript number and reads as [2^64]; it is
    [2^64 - 2048], the largest number below [2^64]. *)
Theorem amount_overflow_rejected :
  (forall x, at_least (2 ^ 64) x = true ->
             depositData {| lamports := x |} = Err RangeError)
  /\ (forall l v b off, 2 ^ (8 * Z.of_nat (span l)) <= v ->
                        encode l (Num v) b off = Err RangeError)
  /\ is_double (2 ^ 64 - 2048) = true
  /\ depositData {| lamports := Num (2 ^ 64 - 2048) |}
     = Ok (1 :: le_bytes 8 (2 ^ 64 - 2048))
  /\ (forall z, is_double z = true -> z < 2 ^ 64 -> z <= 2 ^ 64 - 2048)
  /\ Number_of_Z (2 ^ 64 - 1) = Num (2 ^ 64).
Proof.
  split; [| split; [| split; [| split; [| split]]]].
  - intros [z | | |] Hx; cbn [at_least] in Hx; try discriminate.
    + apply depositData_overflow. apply Z.leb_le, Hx.
    + reflexivity.
  - intros l v b off. apply encode_overflow.
  - vm_compute. reflexivity.
  - apply depositData_uint64. lia.
  - apply is_double_below_2_64.
  - vm_compute. reflexivity.
Qed.

(** C4: the payload length depends on the instruction kind alone.  Any two
    successful encodings of a deposit, whatever the amounts, have the same
    length, which is the span of the layout: 1 + 8 = 9 bytes. *)
Theorem payload_length_fixed a a' d d' :
  depositData a = Ok d -> depositData a' = Ok d' ->
  length d = length d'
  /\ length d = (1 + 8)%nat
  /\ length d = struct_span dataLayout.
Proof.
  intros H H'. apply depositData_length in H, H'.
  rewrite H, H'. repeat split.
Qed.

(** C7, as amended: the codec round-trips on the amounts it holds
    exactly.  For every amount that is a non-negative integer below [2^64]
    and exactly a double (every integer up to [2^53] is one), decoding the
    encoded deposit payload with the same layout gives back the object that
    was encoded: instruction 1 and the amount. *)
Theorem codec_round_trip x :
  exact_amount x = true ->
  (d ← depositData {| lamports := x |}; decodeDeposit d) =
  Ok {[ "instruction" := Num 1; "amount" := x ]}.
Proof.
  destruct x as [z | | |]; cbn [exact_amount]; try discriminate.
  intros Hv. apply andb_true_iff in Hv as [Hv Hd].
  apply andb_true_iff in Hv as [H0 H64].
  apply Z.leb_le in H0. apply Z.ltb_lt in H64.
  rewrite depositData_uint64 by lia. result_simpl.
  rewrite decodeDeposit_payload by lia.
  rewrite Number_of_Z_double by assumption. reflexivity.
Qed.

(** C10: the amount is exact within the safe-integer range.  An integer
    from 0 to [2^53 - 1] is a JavaScript number as it stands, and the amount
    field of the payload is exactly that integer.  Beyond that range
    exactness is lost although the field is 64 bits wide: the amount
    [2^53 + 1] is stored as [2^53]. *)
Theorem amount_exact_in_safe_range n :
  0 <= n <= MAX_SAFE_INTEGER ->
  Number_of_Z n = Num n
  /\ depositData {| lamports := Number_of_Z n |} = Ok (1 :: le_bytes 8 n)
  /\ amount_field (1 :: le_bytes 8 n) = n
  /\ (d ← depositData {| lamports := Number_of_Z (2 ^ 53 + 1) |};
      Ok (amount_field d)) = Ok (2 ^ 53).
Proof.
  unfold MAX_SAFE_INTEGER. intros Hn.
  rewrite Number_of_Z_small by lia.
  repeat split.
  - apply depositData_uint64. lia.
  - apply amount_field_le_bytes. lia.
Qed.

(** ** The properties on concrete inputs *)

(** C7: the amount [2^53 + 1] is non-negative and fits in 64 bits, yet it
    does not round-trip: it comes back as [2^53]. *)
Lemma round_trip_fails_at_2_53_plus_1 :
  0 <= 2 ^ 53 + 1 < 2 ^ 64
  /\ (d ← depositData {| lamports := Num (2 ^ 53 + 1) |}; decodeDeposit d)
     = Ok {[ "instruction" := Num 1; "amount" := Num (2 ^ 53) ]}
  /\ (d ← depositData {| lamports := Num (2 ^ 53 + 1) |}; decodeDeposit d)
     <> Ok {[ "instruction" := Num 1; "amount" := Num (2 ^ 53 + 1) ]}
  /\ (d ← depositData {| lamports := Number_of_Z (2 ^ 53 + 1) |};
      decodeDeposit d)
     = Ok {[ "instruction" := Num 1; "amount" := Num (2 ^ 53) ]}.
Proof.
  assert (H : (d ← depositData {| lamports := Num (2 ^ 53 + 1) |};
               decodeDeposit d)
              = Ok {[ "instruction" := Num 1; "amount" := Num (2 ^ 53) ]})
    by (vm_compute; reflexivity).
  split; [lia |]. split; [exact H |].
  split; [| vm_compute; reflexivity].
  rewrite H. intros Heq.
  apply (f_equal (fun r : result (gmap string number) =>
                    match r with
                    | Ok m => m !! "amount"
                    | Err _ => None
                    end)) in Heq.
  vm_compute in Heq. discriminate Heq.
Qed.

(** C2: the boundary value [2^64 - 1] is not encoded; it reads as [2^64]
    and is rejected. *)
Lemma boundary_below_2_64_rejected :
  ~ exists d,
      depositData {| lamports := Number_of_Z (2 ^ 64 - 1) |} = Ok d.
Proof. intros [d H]. vm_compute in H. discriminate H. Qed.

Lemma amount_overflow_rejected_witness :
  at_least (2 ^ 64) (Num (2 ^ 64)) = true
  /\ depositData {| lamports := Num (2 ^ 64) |} = Err RangeError.
Proof.
  assert (H : at_least (2 ^ 64) (Num (2 ^ 64)) = true) by reflexivity.
  split; [exact H |].
  exact (proj1 amount_overflow_rejected (Num (2 ^ 64)) H).
Defined.

Lemma find_reserve_account :
  TestVectors.find_authority TestVectors.programAddresses "reserve_account"
  = Ok TestVectors.reserve_account.
Proof. vm_compute. reflexivity. Defined.

Lemma find_mint_authority :
  TestVectors.find_authority TestVectors.programAddresses "mint_authority"
  = Ok TestVectors.mint_authority.
Proof. vm_compute. reflexivity. Defined.

Lemma deposit_1000000 :
  TestVectors.getDepositInstruction
    TestVectors.sender TestVectors.recipient TestVectors.programAddresses
    {| lamports := Num 1000000 |}
  = Ok (TestVectors.expected_instruction
          TestVectors.sender TestVectors.recipient
          [1; 64; 66; 15; 0; 0; 0; 0; 0]).
Proof. vm_compute. reflexivity. Defined.

Lemma deposit_7 :
  TestVectors.getDepositInstruction
    TestVectors.recipient TestVectors.sender TestVectors.programAddresses
    {| lamports := Num 7 |}
  = Ok (TestVectors.expected_instruction
          TestVectors.recipient TestVectors.sender
          [1; 7; 0; 0; 0; 0; 0; 0; 0]).
Proof. vm_compute. reflexivity. Defined.

Lemma deposit_scenario_witness :
  TestVectors.find_authority TestVectors.programAddresses "reserve_account"
    = Ok TestVectors.reserve_account
  /\ TestVectors.find_authority TestVectors.programAddresses "mint_authority"
     = Ok TestVectors.mint_authority
  /\ TestVectors.getDepositInstruction
       TestVectors.sender TestVectors.recipient TestVectors.programAddresses
       {| lamports := Num 1000000 |}
     = Ok (TestVectors.expected_instruction
             TestVectors.sender TestVectors.recipient
             [1; 64; 66; 15; 0; 0; 0; 0; 0]).
Proof.
  split; [exact find_reserve_account |].
  split; [exact find_mint_authority |].
  exact (proj1 (deposit_scenario
                  TestVectors.TOKEN_PROGRAM_ID
                  TestVectors.SystemProgram_programId
                  TestVectors.find_authority
                  TestVectors.sender TestVectors.recipient
                  TestVectors.programAddresses
                  TestVectors.reserve_account TestVectors.mint_authority
                  find_reserve_account find_mint_authority)).
Defined.

Lemma account_order_stable_witness :
  flags (keys (TestVectors.expected_instruction
                 TestVectors.sender TestVectors.recipient
                 [1; 64; 66; 15; 0; 0; 0; 0; 0]))
  = flags (keys (TestVectors.expected_instruction
                   TestVectors.recipient TestVectors.sender
                   [1; 7; 0; 0; 0; 0; 0; 0; 0]))
  /\ flags (keys (TestVectors.expected_instruction
                    TestVectors.sender TestVectors.recipient
                    [1; 64; 66; 15; 0; 0; 0; 0; 0]))
     = depositAccountFlags.
Proof.
  pose proof (account_order_stable
                TestVectors.TOKEN_PROGRAM_ID
                TestVectors.SystemProgram_programId
                TestVectors.find_authority
                _ _ _ _ _ _ _ _ _ _
                deposit_1000000 deposit_7) as (H1 & H2 & _).
  split; [exact H1 | exact H2].
Defined.

Lemma deposit_all_or_nothing_witness :
  depositData {| lamports := Num (-1) |} = Err RangeError
  \/ (is_ok (depositData {| lamports := Num (-1) |}) = true
      /\ TestVectors.find_authority TestVectors.programAddresses
           "reserve_account" = Err RangeError)
  \/ (is_ok (depositData {| lamports := Num (-1) |}) = true
      /\ is_ok (TestVectors.find_authority TestVectors.programAddresses
                  "reserve_account") = true
      /\ TestVectors.find_authority TestVectors.programAddresses
           "mint_authority" = Err RangeError).
Proof.
  exact (deposit_all_or_nothing
           TestVectors.TOKEN_PROGRAM_ID TestVectors.SystemProgram_programId
           TestVectors.find_authority
           TestVectors.sender TestVectors.recipient
           TestVectors.programAddresses {| lamports := Num (-1) |}).
Defined.

Lemma sender_only_signer_witness :
  List.filter isSigner
    (keys (TestVectors.expected_instruction
             TestVectors.sender TestVectors.recipient
             [1; 64; 66; 15; 0; 0; 0; 0; 0]))
  = [ TestVectors.account TestVectors.sender true true ].
Proof.
  pose proof (sender_only_signer
                TestVectors.TOKEN_PROGRAM_ID
                TestVectors.SystemProgram_programId
                TestVectors.find_authority
                _ _ _ _ _ deposit_1000000)
    as (_ & _ & H & _).
  exact H.
Defined.

Lemma payload_length_fixed_witness :
  depositData {| lamports := Num 1000000 |}
    = Ok [1; 64; 66; 15; 0; 0; 0; 0; 0]
  /\ depositData {| lamports := Num (2 ^ 64 - 2048) |}
     = Ok [1; 0; 248; 255; 255; 255; 255; 255; 255]
  /\ length [1; 64; 66; 15; 0; 0; 0; 0; 0]
     = length [1; 0; 248; 255; 255; 255; 255; 255; 255].
Proof.
  assert (H1 : depositData {| lamports := Num 1000000 |}
               = Ok [1; 64; 66; 15; 0; 0; 0; 0; 0])
    by (vm_compute; reflexivity).
  assert (H2 : depositData {| lamports := Num (2 ^ 64 - 2048) |}
               = Ok [1; 0; 248; 255; 255; 255; 255; 255; 255])
    by (vm_compute; reflexivity).
  split; [exact H1 |]. split; [exact H2 |].
  exact (proj1 (payload_length_fixed _ _ _ _ H1 H2)).
Defined.

Lemma codec_round_trip_witness :
  exact_amount (Num (2 ^ 64 - 2048)) = true
  /\ (d ← depositData {| lamports := Num (2 ^ 64 - 2048) |}; decodeDeposit d)
     = Ok {[ "instruction" := Num 1; "amount" := Num (2 ^ 64 - 2048) ]}.
Proof.
  assert (H : exact_amount (Num (2 ^ 64 - 2048)) = true)
    by (vm_compute; reflexivity).
  split; [exact H |].
  exact (codec_round_trip (Num (2 ^ 64 - 2048)) H).
Defined.

Lemma amount_exact_in_safe_range_witness :
  0 <= 2 ^ 53 - 1 <= MAX_SAFE_INTEGER
  /\ depositData {| lamports := Number_of_Z (2 ^ 53 - 1) |}
     = Ok [1; 255; 255; 255; 255; 255; 255; 31; 0]
  /\ amount_field [1; 255; 255; 255; 255; 255; 255; 31; 0] = 2 ^ 53 - 1.
Proof.
  assert (H : 0 <= 2 ^ 53 - 1 <= MAX_SAFE_INTEGER)
    by (unfold MAX_SAFE_INTEGER; lia).
  split; [exact H |].
  pose proof (amount_exact_in_safe_range (2 ^ 53 - 1) H) as (_ & H1 & H2 & _).
  split; [exact H1 | exact H2].
Defined.

Lemma derive_off_curve_witness :
  TestVectors.derive (replicate 32 1)
    [replicate 32 2; TestVectors.bytes_of_string "reserve_account"]
    = Ok (TestVectors.reserve_account, 252%nat)
  /\ TestVectors.isOnCurve TestVectors.reserve_account = false.
Proof.
  assert (H : TestVectors.derive (replicate 32 1)
                [replicate 32 2;
                 TestVectors.bytes_of_string "reserve_account"]
              = Ok (TestVectors.reserve_account, 252%nat))
    by (vm_compute; reflexivity).
  split; [exact H |].
  exact (proj1 (derive_off_curve
                  TestVectors.hash TestVectors.isOnCurve
                  TestVectors.domain_tag TestVectors.MAX_SEEDS
                  _ _ _ _ H)).
Defined.


(** * Further properties of the payload and of the instruction *)

(** ** Buffer writes *)

Lemma write_le_lookup_other k v off (b : Buffer) i :
  (i < off \/ off + k <= i)%nat -> write_le k v off b !! i = b !! i.
Proof.
  revert v off b. induction k as [| k IH]; intros v off b Hi.
  - reflexivity.
  - cbn [write_le]. rewrite IH by lia.
    apply list_lookup_insert_ne. lia.
Qed.

Lemma write_le_bytes k v off (b : Buffer) :
  Forall is_byte b -> Forall is_byte (write_le k v off b).
Proof.
  revert v off b. induction k as [| k IH]; intros v off b Hb.
  - exact Hb.
  - cbn [write_le]. apply IH. apply Forall_insert; [exact Hb |].
    unfold is_byte. apply Z.mod_pos_bound. lia.
Qed.

Lemma writeUIntLE_Ok_inv (b : Buffer) x off k b' :
  writeUIntLE b x off k = Ok b' ->
  (1 <= k <= 6)%nat
  /\ (off + k <= length b)%nat
  /\ 0 <= amount_stored x < 2 ^ (8 * Z.of_nat k)
  /\ b' = write_le k (amount_stored x) off b.
Proof.
  unfold writeUIntLE. cbv zeta.
  assert (Hpow : 0 < 2 ^ (8 * Z.of_nat k)) by (apply Z.pow_pos_nonneg; lia).
  destruct (Nat.eqb_spec k 0); [discriminate |].
  destruct (Nat.ltb_spec 6 k); [discriminate |]. cbn [orb].
  destruct x as [v | | |]; cbn [amount_stored]; try discriminate.
  - destruct (Z.ltb_spec (2 ^ (8 * Z.of_nat k) - 1) v); [discriminate |].
    destruct (Z.ltb_spec v 0); [discriminate |]. cbn [orb].
    destruct (Nat.leb_spec (off + k) (length b)); [| discriminate].
    intros [= <-]. repeat split; lia.
  - destruct (Nat.leb_spec (off + k) (length b)); [| discriminate].
    intros [= <-]. repeat split; lia.
Qed.

Lemma read_le_ext k off (b b' : Buffer) :
  (forall i, (off <= i < off + k)%nat -> b' !! i = b !! i) ->
  read_le k off b' = read_le k off b.
Proof.
  revert off. induction k as [| k IH]; intros off Hi.
  - reflexivity.
  - cbn [read_le]. rewrite (Hi off) by lia.
    rewrite (IH (S off)) by (intros i Hr; apply Hi; lia). reflexivity.
Qed.

Lemma read_write_le k v off (b : Buffer) :
  (off + k <= length b)%nat ->
  read_le k off (write_le k v off b) = v mod 256 ^ Z.of_nat k.
Proof.
  intros Hb. rewrite write_le_spec by assumption.
  pose proof (read_le_bytes k v (take off b) (drop (off + k) b)) as H.
  rewrite length_take, Nat.min_l in H by lia. exact H.
Qed.

Lemma pow_256_bytes k : 256 ^ Z.of_nat k = 2 ^ (8 * Z.of_nat k).
Proof. change 256 with (2 ^ 8). rewrite <- Z.pow_mul_r by lia. reflexivity. Qed.

(** X7: a write touches only its own bytes.  After a successful
    [writeUIntLE] of [byteLength] bytes at [offset], the buffer has the
    same length and every byte before [offset] or from
    [offset + byteLength] on is what it was; so writing the amount at
    offset 1 keeps the discriminant at offset 0. *)
Theorem writeUIntLE_frame (b : Buffer) x off k b' i :
  writeUIntLE b x off k = Ok b' ->
  (i < off \/ off + k <= i)%nat ->
  length b' = length b /\ b' !! i = b !! i.
Proof.
  intros H Hi. apply writeUIntLE_Ok_inv in H as (_ & _ & _ & ->).
  split; [apply length_write_le | apply write_le_lookup_other, Hi].
Qed.

(** X8: every layout round-trips at every position.  If a number that is
    exactly a double has been encoded with a layout at some offset of some
    buffer, decoding with the same layout at the same offset returns that
    number. *)
Theorem layout_round_trip l v (b : Buffer) off b' :
  is_double v = true ->
  encode l (Num v) b off = Ok b' ->
  decode l b' off = Ok (Num v).
Proof.
  intros Hd. destruct l as [s p | p].
  - cbn [encode decode].
    intros H. apply writeUIntLE_Ok_inv in H as (Hs & Hb & Hv & ->).
    cbn [amount_stored] in Hv. unfold readUIntLE.
    destruct (Nat.eqb_spec s 0); [lia |].
    destruct (Nat.ltb_spec 6 s); [lia |]. cbn [orb].
    rewrite length_write_le.
    destruct (Nat.leb_spec (off + s) (length b)); [| lia].
    rewrite read_write_le by assumption.
    rewrite pow_256_bytes, Z.mod_small by assumption. reflexivity.
  - intros H.
    assert (Hv : 0 <= v < 2 ^ 64).
    { destruct (Z.lt_ge_cases v 0) as [Hneg |].
      - rewrite (encode_negative (NearUInt64 p)) in H by assumption.
        discriminate.
      - destruct (Z.lt_ge_cases v (2 ^ 64)) as [| Hbig]; [lia |].
        rewrite (encode_overflow (NearUInt64 p)) in H by exact Hbig.
        discriminate. }
    cbn [encode decode] in *.
    rewrite divmodInt64_uint64 in H by assumption.
    unfold writeUInt32LE in H.
    destruct (writeUIntLE b (Num (v mod 2 ^ 32)) off 4) as [b1 |] eqn:H1;
      result_simpl; [| discriminate].
    apply writeUIntLE_Ok_inv in H1 as (_ & Hb1 & Hlo & ->).
    apply writeUIntLE_Ok_inv in H as (_ & Hb2 & Hhi & ->).
    cbn [amount_stored] in *. rewrite length_write_le in Hb2.
    change (2 ^ (8 * Z.of_nat 4)) with (2 ^ 32) in *.
    unfold readUInt32LE, readUIntLE. cbn [Nat.eqb Nat.ltb Nat.leb orb].
    rewrite !length_write_le.
    destruct (Nat.leb_spec (off + 4) (length b)); [| lia].
    destruct (Nat.leb_spec (off + 4 + 4) (length b)); [| lia].
    result_simpl.
    rewrite (read_le_ext 4 off (write_le 4 (v mod 2 ^ 32) off b))
      by (intros i Hi; apply write_le_lookup_other; lia).
    rewrite !read_write_le by (rewrite ?length_write_le; lia).
    rewrite pow_256_bytes. change (2 ^ (8 * Z.of_nat 4)) with (2 ^ 32).
    rewrite !Z.mod_small by lia.
    unfold roundedInt64, scale, add, V2E32.
    pose proof pow2_53_lt_1024.
    rewrite (Number_of_Z_shifted (v / 2 ^ 32) 32) by lia.
    replace (v / 2 ^ 32 * 2 ^ 32 + v mod 2 ^ 32) with v
      by (rewrite (Z.div_mod v (2 ^ 32)) at 1; lia).
    rewrite Number_of_Z_double by (assumption || lia). reflexivity.
Qed.

Lemma writeUIntLE_bytes (b : Buffer) x off k b' :
  Forall is_byte b -> writeUIntLE b x off k = Ok b' -> Forall is_byte b'.
Proof.
  intros Hb H. apply writeUIntLE_Ok_inv in H as (_ & _ & _ & ->).
  apply write_le_bytes, Hb.
Qed.

Lemma encode_Ok_inv l x (b : Buffer) off b' :
  encode l x b off = Ok b' ->
  length b' = length b
  /\ (forall i, (i < off \/ off + span l <= i)%nat -> b' !! i = b !! i)
  /\ (Forall is_byte b -> Forall is_byte b').
Proof.
  destruct l as [s p | p]; cbn [encode span].
  - intros H. split; [eapply writeUIntLE_length, H |]. split.
    + intros i Hi. apply writeUIntLE_Ok_inv in H as (_ & _ & _ & ->).
      apply write_le_lookup_other, Hi.
    + intros Hb. eapply writeUIntLE_bytes; eassumption.
  - unfold divmodInt64, writeUInt32LE.
    destruct (writeUIntLE b _ off 4) as [b1 |] eqn:H1; result_simpl;
      [| discriminate].
    intros H2. split; [| split].
    + apply writeUIntLE_length in H1, H2. congruence.
    + intros i Hi.
      apply writeUIntLE_Ok_inv in H1 as (_ & _ & _ & ->).
      apply writeUIntLE_Ok_inv in H2 as (_ & _ & _ & ->).
      rewrite !write_le_lookup_other by lia. reflexivity.
    + intros Hb. eapply writeUIntLE_bytes; [| exact H2].
      eapply writeUIntLE_bytes; eassumption.
Qed.

(** X9: the struct encoder stays within its span.  For every list of
    fields, source object, buffer and offset, a successful [struct_encode]
    returns a buffer of the same length in which every byte outside
    [offset, offset + span) is unchanged and in which all elements are
    bytes if they were before; and a failed one fails with a
    [RangeError]. *)
Theorem struct_encode_outcome s src (b : Buffer) off :
  match struct_encode s src b off with
  | Ok b' =>
      length b' = length b
      /\ (forall i, (i < off \/ off + struct_span s <= i)%nat ->
                    b' !! i = b !! i)
      /\ (Forall is_byte b -> Forall is_byte b')
  | Err e => e = RangeError
  end.
Proof.
  revert b off. induction s as [| fd rest IH]; intros b off.
  - cbn [struct_encode]. repeat split; auto.
  - cbn [struct_encode].
    change (struct_span (fd :: rest)) with (span fd + struct_span rest)%nat.
    destruct (src !! property fd) as [fv |]; result_simpl.
    + destruct (encode fd fv b off) as [b1 |] eqn:H1; result_simpl.
      * apply encode_Ok_inv in H1 as (Hlen & Hframe & Hbytes).
        specialize (IH b1 (off + span fd)%nat).
        destruct (struct_encode rest src b1 (off + span fd)) as [b' | e];
          [| exact IH].
        destruct IH as (Hlen' & Hframe' & Hbytes').
        split; [congruence |]. split.
        -- intros i Hi. rewrite Hframe' by lia. apply Hframe. lia.
        -- auto.
      * eapply encode_error, H1.
    + specialize (IH b (off + span fd)%nat).
      destruct (struct_encode rest src b (off + span fd)) as [b' | e];
        [| exact IH].
      destruct IH as (Hlen' & Hframe' & Hbytes').
      split; [exact Hlen' |]. split; [| exact Hbytes'].
      intros i Hi. apply Hframe'. lia.
Qed.

(** ** The payload for every integral amount *)

Lemma depositData_NaN :
  depositData {| lamports := NaN |} = Ok (1 :: le_bytes 8 0).
Proof. vm_compute. reflexivity. Qed.

Lemma depositData_accepted x :
  amount_accepted x = true ->
  depositData {| lamports := x |} = Ok (1 :: le_bytes 8 (amount_stored x)).
Proof.
  destruct x as [z | | |]; cbn [amount_accepted amount_stored];
    try discriminate.
  - intros H. apply andb_true_iff in H as [H0 H64].
    apply Z.leb_le in H0. apply Z.ltb_lt in H64.
    apply depositData_uint64. lia.
  - intros _. exact depositData_NaN.
Qed.

Lemma depositData_rejected x :
  amount_accepted x = false ->
  depositData {| lamports := x |} = Err RangeError.
Proof.
  destruct x as [z | | |]; cbn [amount_accepted].
  - intros H. apply andb_false_iff in H as [H | H].
    + apply Z.leb_gt in H. apply depositData_negative, H.
    + apply Z.ltb_ge in H. apply depositData_overflow, H.
  - intros _. vm_compute. reflexivity.
  - intros _. vm_compute. reflexivity.
  - discriminate.
Qed.

Lemma depositData_Ok_inv x d :
  depositData {| lamports := x |} = Ok d ->
  amount_accepted x = true /\ d = 1 :: le_bytes 8 (amount_stored x).
Proof.
  intros H. destruct (amount_accepted x) eqn:Ha.
  - rewrite depositData_accepted in H by exact Ha.
    injection H as <-. split; reflexivity.
  - rewrite depositData_rejected in H by exact Ha. discriminate.
Qed.

Lemma le_bytes_are_bytes k v : Forall is_byte (le_bytes k v).
Proof.
  revert v. induction k as [| k IH]; intros v; cbn [le_bytes].
  - constructor.
  - constructor; [| apply IH]. unfold is_byte. apply Z.mod_pos_bound. lia.
Qed.

(** X1: the payload for every integral amount.  Among the integral
    numbers, [NaN] and the infinities, an amount is accepted exactly when
    it is an integer from [0] up to [2^64] excluded, or [NaN]; an
    accepted amount gives the discriminant [1] followed by the eight
    little-endian bytes of the stored integer ([NaN] is stored as [0]
    without an error), and every other amount (negative, [2^64] or more,
    an infinity) gives a [RangeError]. *)
Theorem depositData_integral_amounts x :
  depositData {| lamports := x |} =
  if amount_accepted x
  then Ok (1 :: le_bytes 8 (amount_stored x))
  else Err RangeError.
Proof.
  destruct (amount_accepted x) eqn:Ha.
  - apply depositData_accepted, Ha.
  - apply depositData_rejected, Ha.
Qed.

Lemma Number_of_Z_not_NaN n : Number_of_Z n <> NaN.
Proof.
  unfold Number_of_Z.
  destruct (2 ^ 1024 <=? round53 (Z.abs n)); [destruct (n <? 0) |];
    discriminate.
Qed.

(** X3: the payload determines the number.  Two integer amounts, read as
    the JavaScript numbers nearest to them, that are encoded to the same
    payload are the same number.  (Integers that are not doubles may share
    their number and so their payload, as [2^53] and [2^53 + 1] do.) *)
Theorem payload_determines_number n1 n2 d :
  depositData {| lamports := Number_of_Z n1 |} = Ok d ->
  depositData {| lamports := Number_of_Z n2 |} = Ok d ->
  Number_of_Z n1 = Number_of_Z n2.
Proof.
  intros H1 H2.
  apply depositData_Ok_inv in H1 as [Ha1 ->].
  apply depositData_Ok_inv in H2 as [Ha2 Heq].
  pose proof (Number_of_Z_not_NaN n1) as Hn1.
  pose proof (Number_of_Z_not_NaN n2) as Hn2.
  destruct (Number_of_Z n1) as [z1 | | |]; try discriminate; try congruence.
  destruct (Number_of_Z n2) as [z2 | | |]; try discriminate; try congruence.
  cbn [amount_accepted amount_stored] in *.
  apply andb_true_iff in Ha1 as [H10 H164].
  apply andb_true_iff in Ha2 as [H20 H264].
  apply Z.leb_le in H10, H20. apply Z.ltb_lt in H164, H264.
  f_equal.
  rewrite <- (amount_field_le_bytes z1), <- (amount_field_le_bytes z2) by lia.
  rewrite Heq. reflexivity.
Qed.

(** X6: what every payload looks like.  Whatever the amount, an encoded
    payload has nine elements, all of them bytes, the first being the
    discriminant [1], and its amount field reads back the stored
    integer. *)
Theorem payload_well_formed x d :
  depositData {| lamports := x |} = Ok d ->
  length d = 9%nat
  /\ Forall is_byte d
  /\ d !! 0%nat = Some 1
  /\ amount_field d = amount_stored x.
Proof.
  intros H. apply depositData_Ok_inv in H as [Ha ->].
  split; [cbn [length]; rewrite length_le_bytes; reflexivity |].
  split.
  { constructor; [unfold is_byte; lia | apply le_bytes_are_bytes]. }
  split; [reflexivity |].
  apply amount_field_le_bytes.
  destruct x as [z | | |]; cbn [amount_accepted amount_stored] in *;
    try discriminate; lia.
Qed.

(** ** The instruction for every amount *)

Section DepositCoverage.

Context (TOKEN_PROGRAM_ID SystemProgram_programId : PublicKey)
        (findAuthorityProgramAddress :
           ProgramAddresses -> string -> result PublicKey).

Local Abbreviation getDepositInstruction :=
  (Deposit.getDepositInstruction
     TOKEN_PROGRAM_ID SystemProgram_programId findAuthorityProgramAddress).

(** X2: an amount that the encoder rejects never yields an instruction.
    For a negative amount, an amount of [2^64] or more or an infinity, the
    call fails with a [RangeError] whatever the addresses are and whether
    or not the two address derivations would succeed: the payload is
    encoded before any address is derived. *)
Theorem rejected_amount_no_instruction S R P x :
  amount_accepted x = false ->
  getDepositInstruction S R P {| lamports := x |} = Err RangeError.
Proof.
  intros Ha.
  rewrite (getDepositInstruction_unfold
             TOKEN_PROGRAM_ID SystemProgram_programId
             findAuthorityProgramAddress).
  rewrite depositData_rejected by exact Ha. reflexivity.
Qed.

(** X4: the instruction for every accepted amount.  When the amount is
    accepted and both derived addresses are resolved, the call returns the
    instruction for the Solido program id whose payload is [1] followed by
    the eight little-endian bytes of the amount and whose accounts are
    instance, sender, recipient, mint, reserve, mint authority, token
    program and system program, with the flags of the source. *)
Theorem deposit_instruction_built S R P x ra ma :
  amount_accepted x = true ->
  findAuthorityProgramAddress P "reserve_account" = Ok ra ->
  findAuthorityProgramAddress P "mint_authority" = Ok ma ->
  getDepositInstruction S R P {| lamports := x |} =
    Ok {| keys := [
            {| pubkey := solidoInstanceId P;
               isSigner := false; isWritable := true |};
            {| pubkey := S; isSigner := true; isWritable := true |};
            {| pubkey := R; isSigner := false; isWritable := true |};
            {| pubkey := stSolMintAddress P;
               isSigner := false; isWritable := true |};
            {| pubkey := ra; isSigner := false; isWritable := true |};
            {| pubkey := ma; isSigner := false; isWritable := false |};
            {| pubkey := TOKEN_PROGRAM_ID;
               isSigner := false; isWritable := false |};
            {| pubkey := SystemProgram_programId;
               isSigner := false; isWritable := false |} ];
          data := 1 :: le_bytes 8 (amount_stored x);
          programId := solidoProgramId P |}.
Proof.
  intros Ha Hra Hma.
  rewrite (getDepositInstruction_unfold
             TOKEN_PROGRAM_ID SystemProgram_programId
             findAuthorityProgramAddress).
  rewrite depositData_accepted by exact Ha. rewrite Hra, Hma. reflexivity.
Qed.

(** X5: what a returned instruction says about its inputs.  If the call
    returns an instruction, the amount was accepted, both derivations
    succeeded, the instruction is addressed to the Solido program id, and
    its payload is the discriminant [1] followed by an amount field that
    reads back exactly the stored amount. *)
Theorem deposit_instruction_payload S R P x i :
  getDepositInstruction S R P {| lamports := x |} = Ok i ->
  amount_accepted x = true
  /\ is_ok (findAuthorityProgramAddress P "reserve_account") = true
  /\ is_ok (findAuthorityProgramAddress P "mint_authority") = true
  /\ programId i = solidoProgramId P
  /\ data i = 1 :: le_bytes 8 (amount_stored x)
  /\ amount_field (data i) = amount_stored x.
Proof.
  intros H.
  apply getDepositInstruction_Ok_inv in H as (d & ra & ma & Hd & Hra & Hma & ->).
  cbn [programId data]. rewrite Hra, Hma.
  apply depositData_Ok_inv in Hd as [Ha ->].
  repeat split; try assumption.
  apply amount_field_le_bytes.
  destruct x as [z | | |]; cbn [amount_accepted amount_stored] in *;
    try discriminate; lia.
Qed.

End DepositCoverage.

(** ** The further properties on concrete inputs *)

Lemma writeUIntLE_frame_witness :
  writeUIntLE [9; 0; 8] (Num 7) 1 1 = Ok [9; 7; 8]
  /\ (0 < 1 \/ 1 + 1 <= 0)%nat
  /\ length [9; 7; 8] = length [9; 0; 8]
  /\ [9; 7; 8] !! 0%nat = [9; 0; 8] !! 0%nat.
Proof.
  assert (H : writeUIntLE [9; 0; 8] (Num 7) 1 1 = Ok [9; 7; 8])
    by (vm_compute; reflexivity).
  assert (Hi : (0 < 1 \/ 1 + 1 <= 0)%nat) by (left; lia).
  split; [exact H |]. split; [exact Hi |].
  exact (writeUIntLE_frame [9; 0; 8] (Num 7) 1 1 [9; 7; 8] 0 H Hi).
Defined.

Lemma layout_round_trip_witness :
  is_double (2 ^ 64 - 2048) = true
  /\ encode (nu64 "amount") (Num (2 ^ 64 - 2048)) (alloc 9) 1
     = Ok [0; 0; 248; 255; 255; 255; 255; 255; 255]
  /\ decode (nu64 "amount") [0; 0; 248; 255; 255; 255; 255; 255; 255] 1
     = Ok (Num (2 ^ 64 - 2048)).
Proof.
  assert (Hd : is_double (2 ^ 64 - 2048) = true) by (vm_compute; reflexivity).
  assert (H : encode (nu64 "amount") (Num (2 ^ 64 - 2048)) (alloc 9) 1
              = Ok [0; 0; 248; 255; 255; 255; 255; 255; 255])
    by (vm_compute; reflexivity).
  split; [exact Hd |]. split; [exact H |].
  exact (layout_round_trip _ _ _ _ _ Hd H).
Defined.

Lemma payload_determines_number_witness :
  depositData {| lamports := Number_of_Z (2 ^ 53) |}
    = Ok [1; 0; 0; 0; 0; 0; 0; 32; 0]
  /\ depositData {| lamports := Number_of_Z (2 ^ 53 + 1) |}
     = Ok [1; 0; 0; 0; 0; 0; 0; 32; 0]
  /\ Number_of_Z (2 ^ 53) = Number_of_Z (2 ^ 53 + 1).
Proof.
  assert (H1 : depositData {| lamports := Number_of_Z (2 ^ 53) |}
               = Ok [1; 0; 0; 0; 0; 0; 0; 32; 0])
    by (vm_compute; reflexivity).
  assert (H2 : depositData {| lamports := Number_of_Z (2 ^ 53 + 1) |}
               = Ok [1; 0; 0; 0; 0; 0; 0; 32; 0])
    by (vm_compute; reflexivity).
  split; [exact H1 |]. split; [exact H2 |].
  exact (payload_determines_number _ _ _ H1 H2).
Defined.

Lemma payload_well_formed_witness :
  depositData {| lamports := Num 1000000 |}
    = Ok [1; 64; 66; 15; 0; 0; 0; 0; 0]
  /\ Forall is_byte [1; 64; 66; 15; 0; 0; 0; 0; 0]
  /\ amount_field [1; 64; 66; 15; 0; 0; 0; 0; 0] = 1000000.
Proof.
  assert (H : depositData {| lamports := Num 1000000 |}
              = Ok [1; 64; 66; 15; 0; 0; 0; 0; 0])
    by (vm_compute; reflexivity).
  split; [exact H |].
  pose proof (payload_well_formed _ _ H) as (_ & Hb & _ & Ha).
  split; [exact Hb | exact Ha].
Defined.

Lemma rejected_amount_no_instruction_witness :
  amount_accepted (Num (-1)) = false
  /\ TestVectors.getDepositInstruction
       TestVectors.sender TestVectors.recipient TestVectors.programAddresses
       {| lamports := Num (-1) |}
     = Err RangeError.
Proof.
  assert (H : amount_accepted (Num (-1)) = false) by reflexivity.
  split; [exact H |].
  exact (rejected_amount_no_instruction
           TestVectors.TOKEN_PROGRAM_ID TestVectors.SystemProgram_programId
           TestVectors.find_authority
           TestVectors.sender TestVectors.recipient
           TestVectors.programAddresses (Num (-1)) H).
Defined.

Lemma deposit_instruction_built_witness :
  amount_accepted (Num 7) = true
  /\ TestVectors.getDepositInstruction
       TestVectors.recipient TestVectors.sender TestVectors.programAddresses
       {| lamports := Num 7 |}
     = Ok (TestVectors.expected_instruction
             TestVectors.recipient TestVectors.sender
             [1; 7; 0; 0; 0; 0; 0; 0; 0]).
Proof.
  assert (H : amount_accepted (Num 7) = true) by reflexivity.
  split; [exact H |].
  exact (deposit_instruction_built
           TestVectors.TOKEN_PROGRAM_ID TestVectors.SystemProgram_programId
           TestVectors.find_authority
           TestVectors.recipient TestVectors.sender
           TestVectors.programAddresses (Num 7)
           TestVectors.reserve_account TestVectors.mint_authority
           H find_reserve_account find_mint_authority).
Defined.

Lemma deposit_instruction_payload_witness :
  TestVectors.getDepositInstruction
    TestVectors.recipient TestVectors.sender TestVectors.programAddresses
    {| lamports := Num 7 |}
  = Ok (TestVectors.expected_instruction
          TestVectors.recipient TestVectors.sender
          [1; 7; 0; 0; 0; 0; 0; 0; 0])
  /\ amount_field [1; 7; 0; 0; 0; 0; 0; 0; 0] = 7.
Proof.
  split; [exact deposit_7 |].
  pose proof (deposit_instruction_payload
                TestVectors.TOKEN_PROGRAM_ID
                TestVectors.SystemProgram_programId
                TestVectors.find_authority
                _ _ _ _ _ deposit_7) as (_ & _ & _ & _ & _ & H).
  exact H.
Defined.
